(** * Term search with pronoun expansion: a shallow embedding of [main.js]

    The program scans a text for a comma separated list of terms.  A term that
    is a pronoun also brings in the other pronouns of its class, and the term
    ["I"] is the only one that is matched with its casing preserved.

    Strings are sequences of 8-bit code units ([string]); the case maps act on
    the ASCII letters and leave every other code unit as it is, which is what
    the engine does on ASCII input (for code units above 127 the engine
    consults the Unicode tables, which are outside this development).
    Arrays are lists; the [Set] used for deduplication is its insertion-ordered
    element list; the [PRONOUNS] object is an association list in key
    insertion order. *)

From Stdlib Require Import Bool Arith Lia List Ascii String.
Import ListNotations.

Local Open Scope string_scope.
Local Open Scope list_scope.
Local Open Scope nat_scope.

(** ** Built-in string and array operations used by the program *)

Module Js.

(** [String.prototype.toUpperCase] and [toLowerCase], on ASCII letters. *)
Definition upperChar (c : ascii) : ascii :=
  let n := nat_of_ascii c in
  if (97 <=? n) && (n <=? 122) then ascii_of_nat (n - 32) else c.

Definition lowerChar (c : ascii) : ascii :=
  let n := nat_of_ascii c in
  if (65 <=? n) && (n <=? 90) then ascii_of_nat (n + 32) else c.

Fixpoint toUpperCase (s : string) : string :=
  match s with
  | EmptyString => EmptyString
  | String c s' => String (upperChar c) (toUpperCase s')
  end.

Fixpoint toLowerCase (s : string) : string :=
  match s with
  | EmptyString => EmptyString
  | String c s' => String (lowerChar c) (toLowerCase s')
  end.

(** [Array.prototype.includes] on an array of strings. *)
Definition includes (xs : list string) (x : string) : bool :=
  existsb (String.eqb x) xs.

(** [Array.prototype.some]. *)
Definition some {A : Type} (p : A -> bool) (xs : list A) : bool :=
  existsb p xs.

(** [String.prototype.split] with a string separator.  The scan goes left
    to right; [piece] is the text gathered since the last separator and
    [skip] counts the code units of a separator just matched that are still
    to be passed over, so that occurrences never overlap. *)
Fixpoint splitScan (sep : string) (skip : nat) (piece s : string)
  : list string :=
  match s with
  | EmptyString => [piece]
  | String c s' =>
      match skip with
      | S k => splitScan sep k piece s'
      | O =>
          if prefix sep s
          then piece :: splitScan sep (String.length sep - 1) EmptyString s'
          else splitScan sep O (piece ++ String c EmptyString)%string s'
      end
  end.

Fixpoint codeUnits (s : string) : list string :=
  match s with
  | EmptyString => []
  | String c s' => String c EmptyString :: codeUnits s'
  end.

Definition split (s sep : string) : list string :=
  match sep with
  | EmptyString => codeUnits s
  | _ => splitScan sep O EmptyString s
  end.

(** [new Set(xs)]: the elements in order of first insertion. *)
Definition setAdd (seen : list string) (x : string) : list string :=
  if includes seen x then seen else seen ++ [x].

Definition newSet (xs : list string) : list string :=
  fold_left setAdd xs [].

(** [Object.values] of an object with non-numeric string keys. *)
Definition Object_values {A : Type} (o : list (string * A)) : list A :=
  map snd o.

(** [Array.prototype.join], used to state that splitting loses nothing. *)
Fixpoint join (sep : string) (xs : list string) : string :=
  match xs with
  | [] => EmptyString
  | [x] => x
  | x :: xs' => (x ++ sep ++ join sep xs')%string
  end.

End Js.

Import Js.

(** ** The program *)

Definition PRONOUNS : list (string * list string) :=
  [ ("1st person singular", ["I"; "me"; "my"; "mine"; "myself"]);
    ("1st person plural", ["we"; "us"; "our"; "ours"; "ourselves"]);
    ("2nd person singular", ["you"; "your"; "yourself"]) ].

Definition CASE_SENSITIVE : list string := ["I"].

Definition isTermCaseSensitive (term : string) : bool :=
  includes CASE_SENSITIVE (toUpperCase term).

Definition findCaseSensitiveTermInstances (text terms : list string)
  : list string :=
  filter (fun term => includes text term) terms.

Definition findCaseInsensitiveTermInstances (text terms : list string)
  : list string :=
  let text := map (fun term => toLowerCase term) text in
  let terms := map (fun term => toLowerCase term) terms in
  filter (fun term => includes text term) terms.

Definition findTermInstances (text terms : string) : list string :=
  let text := split text " " in
  let terms :=
    map (fun term => if isTermCaseSensitive term then term
                     else toLowerCase term)
        (split terms ", ") in
  let additionalPronouns :=
    fold_left
      (fun pronounsToAdd pronounClass =>
         let termsInClass := some (fun term => includes pronounClass term) terms in
         if termsInClass then pronounsToAdd ++ pronounClass
         else pronounsToAdd)
      (Object_values PRONOUNS) [] in
  let terms := newSet (terms ++ additionalPronouns) in
  let caseSensitiveTerms := filter (fun term => isTermCaseSensitive term) terms in
  let caseInsensitiveTerms :=
    filter (fun term => negb (isTermCaseSensitive term)) terms in
  let results := [] in
  let results :=
    if 0 <? List.length caseSensitiveTerms
    then results ++ findCaseSensitiveTermInstances text caseSensitiveTerms
    else results in
  results ++ findCaseInsensitiveTermInstances text caseInsensitiveTerms.

(** ** The local variables of [findTermInstances], as functions of its
    arguments, so that statements can name the intermediate values *)

Definition tokensOf (text : string) : list string := split text " ".

Definition normalize (term : string) : string :=
  if isTermCaseSensitive term then term else toLowerCase term.

Definition normalizedTerms (terms : string) : list string :=
  map normalize (split terms ", ").

(** Whether some term of [terms] is listed in [pronounClass]. *)
Definition triggered (terms pronounClass : list string) : bool :=
  some (fun term => includes pronounClass term) terms.

Definition additionalPronouns (terms : list string) : list string :=
  fold_left
    (fun pronounsToAdd pronounClass =>
       if some (fun term => includes pronounClass term) terms
       then pronounsToAdd ++ pronounClass
       else pronounsToAdd)
    (Object_values PRONOUNS) [].

Definition mergedTerms (terms : string) : list string :=
  newSet (normalizedTerms terms ++ additionalPronouns (normalizedTerms terms)).

Definition caseSensitiveTerms (terms : string) : list string :=
  filter isTermCaseSensitive (mergedTerms terms).

Definition caseInsensitiveTerms (terms : string) : list string :=
  filter (fun term => negb (isTermCaseSensitive term)) (mergedTerms terms).

Definition caseSensitiveMatches (text terms : string) : list string :=
  findCaseSensitiveTermInstances (tokensOf text) (caseSensitiveTerms terms).

Definition caseInsensitiveMatches (text terms : string) : list string :=
  findCaseInsensitiveTermInstances (tokensOf text) (caseInsensitiveTerms terms).

(** A term list is a subsequence of another when it is obtained by dropping
    elements, the order of the others being kept. *)
Inductive Subsequence {A : Type} : list A -> list A -> Prop :=
| Subsequence_nil : Subsequence [] []
| Subsequence_keep x xs ys : Subsequence xs ys -> Subsequence (x :: xs) (x :: ys)
| Subsequence_drop y xs ys : Subsequence xs ys -> Subsequence xs (y :: ys).

(** The texts of the first three scenarios printed by the program. *)
Definition text1 := "The Customer is always right".
Definition text2 := "The Customer is not our client".
Definition text3 := "My rights cannot be abridged by myself, only the Client".

(** A string all of whose code units are ASCII (below 128).  On such a
    string the case maps of this development are those of the engine. *)
Definition isAscii (s : string) : bool :=
  forallb (fun c => nat_of_ascii c <? 128) (list_ascii_of_string s).

(** ** Case maps *)

Section CaseMaps.

Ltac all_chars c := destruct c as [[] [] [] [] [] [] [] []]; vm_compute.

Lemma lowerChar_idem c : lowerChar (lowerChar c) = lowerChar c.
Proof. all_chars c; reflexivity. Qed.

Lemma upperChar_lowerChar c : upperChar (lowerChar c) = upperChar c.
Proof. all_chars c; reflexivity. Qed.

Lemma upperChar_I c :
  upperChar c = "I"%char -> c = "I"%char \/ c = "i"%char.
Proof. all_chars c; intros H; try discriminate H; auto. Qed.

Lemma toLowerCase_idem s : toLowerCase (toLowerCase s) = toLowerCase s.
Proof.
  induction s as [|c s IH]; simpl; [reflexivity|].
  now rewrite lowerChar_idem, IH.
Qed.

Lemma toUpperCase_toLowerCase s : toUpperCase (toLowerCase s) = toUpperCase s.
Proof.
  induction s as [|c s IH]; simpl; [reflexivity|].
  now rewrite upperChar_lowerChar, IH.
Qed.

Lemma toLowerCase_empty s : toLowerCase s = "" <-> s = "".
Proof. destruct s; simpl; split; intros H; try discriminate; reflexivity. Qed.

End CaseMaps.

(** ** Array membership *)

Lemma includes_In xs x : includes xs x = true <-> In x xs.
Proof.
  unfold includes. rewrite existsb_exists. split.
  - intros [y [Hy Heq]]. apply String.eqb_eq in Heq. now subst.
  - intros H. exists x. split; [assumption | apply String.eqb_refl].
Qed.

Lemma includes_false xs x : includes xs x = false <-> ~ In x xs.
Proof.
  rewrite <- includes_In. destruct (includes xs x); split; congruence.
Qed.

Lemma includes_map_toLowerCase xs x :
  In x xs -> includes (map toLowerCase xs) (toLowerCase x) = true.
Proof. intros H. apply includes_In. now apply in_map. Qed.

(** ** Classification *)

Lemma isTermCaseSensitive_upper t :
  isTermCaseSensitive t = true <-> toUpperCase t = "I".
Proof.
  unfold isTermCaseSensitive. rewrite includes_In. simpl. intuition congruence.
Qed.

Lemma isTermCaseSensitive_ascii t :
  isTermCaseSensitive t = true <-> t = "I" \/ t = "i".
Proof.
  rewrite isTermCaseSensitive_upper. split.
  - destruct t as [|c [|c' t]]; simpl; intros H; try discriminate H.
    injection H as H. apply upperChar_I in H. destruct H; subst; auto.
  - intros [-> | ->]; reflexivity.
Qed.

Lemma isTermCaseSensitive_toLowerCase t :
  isTermCaseSensitive (toLowerCase t) = isTermCaseSensitive t.
Proof. unfold isTermCaseSensitive. now rewrite toUpperCase_toLowerCase. Qed.

(** C3.  [isTermCaseSensitive t] is true exactly when the uppercased form of
    [t] is a member of the case-sensitive set, which is [{"I"}]; two terms with
    the same uppercased form are classified alike (the text is not an
    argument), and the empty string is not case sensitive. *)
Theorem isTermCaseSensitive_spec :
  (forall t, isTermCaseSensitive t = true <-> In (toUpperCase t) CASE_SENSITIVE)
  /\ CASE_SENSITIVE = ["I"]
  /\ (forall t, isTermCaseSensitive t = true <-> toUpperCase t = "I")
  /\ (forall t u, toUpperCase t = toUpperCase u ->
                  isTermCaseSensitive t = isTermCaseSensitive u)
  /\ isTermCaseSensitive "" = false.
Proof.
  split; [|split; [|split; [|split]]].
  - intros t. unfold isTermCaseSensitive. apply includes_In.
  - reflexivity.
  - apply isTermCaseSensitive_upper.
  - intros t u H. unfold isTermCaseSensitive. now rewrite H.
  - reflexivity.
Qed.

Lemma isTermCaseSensitive_spec_witness :
  isTermCaseSensitive "i" = isTermCaseSensitive "I".
Proof.
  apply (proj1 (proj2 (proj2 (proj2 isTermCaseSensitive_spec))) "i" "I").
  reflexivity.
Defined.

(** ** Deduplication through [Set] *)

Lemma setAdd_In seen x y : In y (setAdd seen x) <-> In y seen \/ y = x.
Proof.
  unfold setAdd. destruct (includes seen x) eqn:E.
  - apply includes_In in E. split; [auto | intros [H | ->]; assumption].
  - rewrite in_app_iff. simpl. intuition.
Qed.

Lemma setAdd_NoDup seen x : NoDup seen -> NoDup (setAdd seen x).
Proof.
  intros Hnd. unfold setAdd. destruct (includes seen x) eqn:E; [assumption|].
  apply includes_false in E. apply NoDup_app; [assumption | |].
  - constructor; [intros [] | constructor].
  - intros a Ha [<- | []]. contradiction.
Qed.

Lemma fold_setAdd_In xs : forall seen y,
  In y (fold_left setAdd xs seen) <-> In y seen \/ In y xs.
Proof.
  induction xs as [|x xs IH]; intros seen y; simpl.
  - intuition.
  - rewrite IH, setAdd_In. intuition.
Qed.

Lemma fold_setAdd_NoDup xs : forall seen,
  NoDup seen -> NoDup (fold_left setAdd xs seen).
Proof.
  induction xs as [|x xs IH]; intros seen Hnd; simpl; [assumption|].
  apply IH. now apply setAdd_NoDup.
Qed.

Lemma newSet_In xs y : In y (newSet xs) <-> In y xs.
Proof. unfold newSet. rewrite fold_setAdd_In. simpl. intuition. Qed.

Lemma newSet_NoDup xs : NoDup (newSet xs).
Proof. apply fold_setAdd_NoDup. constructor. Qed.

(** ** Pronoun expansion *)

Lemma triggered_iff terms pronounClass :
  triggered terms pronounClass = true <->
  exists term, In term terms /\ In term pronounClass.
Proof.
  unfold triggered, some. rewrite existsb_exists.
  split; intros [t [H1 H2]]; exists t; split; try assumption;
    now apply includes_In.
Qed.

Lemma expansion_fold_In terms classes : forall acc m,
  In m (fold_left
          (fun pronounsToAdd pronounClass =>
             if some (fun term => includes pronounClass term) terms
             then pronounsToAdd ++ pronounClass
             else pronounsToAdd) classes acc) <->
  In m acc \/
  exists pronounClass,
    In pronounClass classes /\ triggered terms pronounClass = true
    /\ In m pronounClass.
Proof.
  induction classes as [|cl classes IH]; intros acc m; simpl.
  - split; [auto | intros [H | [cl [[] _]]]; assumption].
  - rewrite IH. fold (triggered terms cl).
    destruct (triggered terms cl) eqn:E.
    + rewrite in_app_iff. split.
      * intros [[H | H] | [cl' [H1 H2]]]; eauto 6.
      * intros [H | [cl' [[<- | H1] [H2 H3]]]]; eauto 6.
    + split.
      * intros [H | [cl' [H1 H2]]]; eauto 6.
      * intros [H | [cl' [[<- | H1] [H2 H3]]]]; eauto 6. congruence.
Qed.

Lemma additionalPronouns_In terms m :
  In m (additionalPronouns terms) <->
  exists pronounClass,
    In pronounClass (Object_values PRONOUNS)
    /\ triggered terms pronounClass = true /\ In m pronounClass.
Proof.
  unfold additionalPronouns. rewrite expansion_fold_In. simpl.
  split; [intros [[] | H]; exact H | auto].
Qed.

Lemma mergedTerms_In terms m :
  In m (mergedTerms terms) <->
  In m (normalizedTerms terms)
  \/ In m (additionalPronouns (normalizedTerms terms)).
Proof. unfold mergedTerms. now rewrite newSet_In, in_app_iff. Qed.

(** ** The two matchers *)

Lemma filter_Subsequence {A : Type} (p : A -> bool) xs :
  Subsequence (filter p xs) xs.
Proof.
  induction xs as [|x xs IH]; simpl; [constructor|].
  destruct (p x); now constructor.
Qed.

Lemma count_occ_filter (p : string -> bool) xs t :
  count_occ string_dec (filter p xs) t =
  if p t then count_occ string_dec xs t else 0.
Proof.
  induction xs as [|x xs IH]; simpl.
  - now destruct (p t).
  - destruct (string_dec x t) as [-> | Hne].
    + destruct (p t) eqn:E; simpl; [|assumption].
      destruct (string_dec t t); [now rewrite IH | contradiction].
    + destruct (p x); simpl; [|assumption].
      destruct (string_dec x t); [contradiction | assumption].
Qed.

Lemma includes_ext xs ys :
  (forall x, In x xs <-> In x ys) -> forall t, includes xs t = includes ys t.
Proof.
  intros H t. destruct (includes ys t) eqn:E.
  - apply includes_In. apply H. now apply includes_In.
  - apply includes_false. rewrite H. now apply includes_false.
Qed.

Lemma findCaseSensitiveTermInstances_In text terms t :
  In t (findCaseSensitiveTermInstances text terms) <-> In t terms /\ In t text.
Proof.
  unfold findCaseSensitiveTermInstances. now rewrite filter_In, includes_In.
Qed.

Lemma findCaseInsensitiveTermInstances_In text terms t :
  In t (findCaseInsensitiveTermInstances text terms) <->
  In t (map toLowerCase terms) /\ In t (map toLowerCase text).
Proof.
  unfold findCaseInsensitiveTermInstances. cbv zeta.
  now rewrite filter_In, includes_In.
Qed.

(** ** The stages of [findTermInstances] *)

Lemma findTermInstances_stages text terms :
  findTermInstances text terms =
  (if 0 <? List.length (caseSensitiveTerms terms)
   then [] ++ caseSensitiveMatches text terms else [])
  ++ caseInsensitiveMatches text terms.
Proof. reflexivity. Qed.

Lemma findTermInstances_concat text terms :
  findTermInstances text terms =
  caseSensitiveMatches text terms ++ caseInsensitiveMatches text terms.
Proof.
  rewrite findTermInstances_stages. unfold caseSensitiveMatches.
  destruct (caseSensitiveTerms terms) as [|t ts]; reflexivity.
Qed.

Lemma findTermInstances_In text terms r :
  In r (findTermInstances text terms) <->
  (In r (mergedTerms terms) /\ isTermCaseSensitive r = true
   /\ In r (tokensOf text))
  \/ (exists term, In term (mergedTerms terms)
                   /\ isTermCaseSensitive term = false
                   /\ r = toLowerCase term
                   /\ In r (map toLowerCase (tokensOf text))).
Proof.
  rewrite findTermInstances_concat, in_app_iff.
  unfold caseSensitiveMatches, caseInsensitiveMatches.
  rewrite findCaseSensitiveTermInstances_In, findCaseInsensitiveTermInstances_In.
  unfold caseSensitiveTerms, caseInsensitiveTerms.
  rewrite filter_In, in_map_iff.
  split.
  - intros [[[H1 H2] H3] | [[x [<- H1]] H3]]; [left; auto|].
    apply filter_In in H1. destruct H1 as [H1 H2].
    apply negb_true_iff in H2. right. exists x. auto.
  - intros [[H1 [H2 H3]] | [x [H1 [H2 [-> H3]]]]]; [left; auto|].
    right. split; [|assumption]. exists x. split; [reflexivity|].
    apply filter_In. split; [assumption | now apply negb_true_iff].
Qed.

(** C4.  The result of [findTermInstances] is the case-sensitive matches
    followed by the case-insensitive matches; every element of the first part
    is classified case sensitive and no element of the second part is. *)
Theorem findTermInstances_order text terms :
  findTermInstances text terms =
  findCaseSensitiveTermInstances (tokensOf text) (caseSensitiveTerms terms)
  ++ findCaseInsensitiveTermInstances (tokensOf text) (caseInsensitiveTerms terms)
  /\ Forall (fun r => isTermCaseSensitive r = true)
            (findCaseSensitiveTermInstances
               (tokensOf text) (caseSensitiveTerms terms))
  /\ Forall (fun r => isTermCaseSensitive r = false)
            (findCaseInsensitiveTermInstances
               (tokensOf text) (caseInsensitiveTerms terms)).
Proof.
  split; [apply findTermInstances_concat | split]; apply Forall_forall; intros r.
  - rewrite findCaseSensitiveTermInstances_In. unfold caseSensitiveTerms.
    rewrite filter_In. tauto.
  - rewrite findCaseInsensitiveTermInstances_In, in_map_iff.
    intros [[x [<- Hx]] _]. unfold caseInsensitiveTerms in Hx.
    apply filter_In in Hx. destruct Hx as [_ Hx].
    rewrite isTermCaseSensitive_toLowerCase. now apply negb_true_iff.
Qed.

(** C6.  Each matcher returns a subsequence of the terms, holding exactly the
    terms found among the tokens: the case-sensitive one compares the terms
    with the tokens as they are, the case-insensitive one lowercases both
    sequences first.  A term is kept as often as it is listed, whatever the
    number and the positions of its occurrences among the tokens; an empty
    term or token sequence gives an empty result; ["i"] does not match ["I"]
    case-sensitively and ["My"] matches ["my"] case-insensitively. *)
Theorem matchers_spec (text terms : list string) :
  (Subsequence (findCaseSensitiveTermInstances text terms) terms
   /\ (forall t, In t (findCaseSensitiveTermInstances text terms) <->
                 In t terms /\ In t text)
   /\ (forall t, count_occ string_dec
                   (findCaseSensitiveTermInstances text terms) t =
                 if includes text t then count_occ string_dec terms t else 0))
  /\ (Subsequence (findCaseInsensitiveTermInstances text terms)
                  (map toLowerCase terms)
      /\ (forall t, In t (findCaseInsensitiveTermInstances text terms) <->
                    In t (map toLowerCase terms)
                    /\ In t (map toLowerCase text))
      /\ (forall t, count_occ string_dec
                      (findCaseInsensitiveTermInstances text terms) t =
                    if includes (map toLowerCase text) t
                    then count_occ string_dec (map toLowerCase terms) t
                    else 0))
  /\ (forall text',
         (forall tok, In tok text <-> In tok text') ->
         findCaseSensitiveTermInstances text' terms =
         findCaseSensitiveTermInstances text terms
         /\ findCaseInsensitiveTermInstances text' terms =
            findCaseInsensitiveTermInstances text terms)
  /\ (findCaseSensitiveTermInstances [] terms = []
      /\ findCaseSensitiveTermInstances text [] = []
      /\ findCaseInsensitiveTermInstances [] terms = []
      /\ findCaseInsensitiveTermInstances text [] = [])
  /\ (findCaseSensitiveTermInstances ["I"] ["i"] = []
      /\ findCaseSensitiveTermInstances ["i"] ["I"] = []
      /\ findCaseInsensitiveTermInstances ["My"] ["my"] = ["my"]
      /\ findCaseInsensitiveTermInstances ["my"] ["My"] = ["my"]).
Proof.
  split; [|split; [|split; [|split]]].
  - split; [apply filter_Subsequence | split].
    + apply findCaseSensitiveTermInstances_In.
    + intros t. unfold findCaseSensitiveTermInstances.
      apply count_occ_filter with (p := fun term => includes text term).
  - split; [apply filter_Subsequence | split].
    + apply findCaseInsensitiveTermInstances_In.
    + intros t. unfold findCaseInsensitiveTermInstances.
      apply count_occ_filter
        with (p := fun term => includes (map toLowerCase text) term).
  - intros text' H. split.
    + unfold findCaseSensitiveTermInstances. apply filter_ext.
      intros t. apply includes_ext. intros x. symmetry. apply H.
    + unfold findCaseInsensitiveTermInstances. apply filter_ext.
      intros t. apply includes_ext. intros x. rewrite !in_map_iff.
      split; intros [y [Hy Hin]]; exists y; (split; [assumption|]);
        now apply H.
  - repeat split.
    + unfold findCaseSensitiveTermInstances.
      induction terms as [|t ts IH]; [reflexivity | exact IH].
    + unfold findCaseInsensitiveTermInstances.
      induction terms as [|t ts IH]; [reflexivity | exact IH].
  - repeat split.
Qed.

Lemma matchers_spec_witness :
  findCaseSensitiveTermInstances ["b"; "a"; "a"] ["a"; "c"] =
  findCaseSensitiveTermInstances ["a"; "b"] ["a"; "c"]
  /\ findCaseInsensitiveTermInstances ["b"; "a"; "a"] ["a"; "c"] =
     findCaseInsensitiveTermInstances ["a"; "b"] ["a"; "c"].
Proof.
  apply (proj1 (proj2 (proj2 (matchers_spec ["a"; "b"] ["a"; "c"])))).
  intros tok. simpl. tauto.
Defined.

(** ** Class-complete expansion *)

Lemma pronoun_casing pronounClass m :
  In pronounClass (Object_values PRONOUNS) -> In m pronounClass ->
  isTermCaseSensitive m = true \/ toLowerCase m = m.
Proof.
  simpl. intros [<- | [<- | [<- | []]]]; simpl; intros H;
    repeat (destruct H as [<- | H]; [vm_compute; auto|]); destruct H.
Qed.

Lemma merged_token_reported text terms m :
  In m (mergedTerms terms) -> In m (tokensOf text) ->
  isTermCaseSensitive m = true \/ toLowerCase m = m ->
  In m (findTermInstances text terms).
Proof.
  intros Hm Htok Hcase. apply findTermInstances_In.
  destruct (isTermCaseSensitive m) eqn:E; [left; auto|].
  destruct Hcase as [Hcase | Hcase]; [discriminate|].
  right. exists m. repeat split; auto.
  rewrite <- Hcase. now apply in_map.
Qed.



(** C9.  An element of the result whose uppercased form is not ["I"] is its
    own lowercased form; the term ["Customer"] found in a text that has the
    token ["Customer"] is reported as ["customer"]. *)
Theorem results_lowercased :
  (forall text terms r,
      In r (findTermInstances text terms) -> toUpperCase r <> "I" ->
      toLowerCase r = r)
  /\ (forall text terms r,
         In r (caseInsensitiveMatches text terms) ->
         exists term, In term (mergedTerms terms) /\ r = toLowerCase term)
  /\ findTermInstances text1 "Customer" = ["customer"].
Proof.
  split; [|split].
  - intros text terms r Hr Hup. apply findTermInstances_In in Hr.
    destruct Hr as [[_ [Hcs _]] | [term [_ [_ [-> _]]]]].
    + apply isTermCaseSensitive_upper in Hcs. contradiction.
    + apply toLowerCase_idem.
  - intros text terms r Hr. unfold caseInsensitiveMatches in Hr.
    apply findCaseInsensitiveTermInstances_In in Hr.
    destruct Hr as [Hr _]. apply in_map_iff in Hr.
    destruct Hr as [term [<- Hterm]]. exists term. split; [|reflexivity].
    unfold caseInsensitiveTerms in Hterm. now apply filter_In in Hterm.
  - reflexivity.
Qed.

Lemma results_lowercased_witness :
  toLowerCase "customer" = "customer".
Proof.
  apply (proj1 results_lowercased text1 "Customer" "customer").
  - vm_compute. auto.
  - vm_compute. discriminate.
Defined.

(** ** The scenarios *)

(** C1, as the program computes it.  For the text
    ["The Customer is not our client"] and the terms ["Customer, us"], the
    term ["us"] brings in the whole 1st person plural class, and the result is
    ["customer"] followed by ["our"]: the supplied term is reported in
    lowercase. *)
Theorem scenario2_result :
  normalizedTerms "Customer, us" = ["customer"; "us"]
  /\ additionalPronouns (normalizedTerms "Customer, us") =
     ["we"; "us"; "our"; "ours"; "ourselves"]
  /\ mergedTerms "Customer, us" =
     ["customer"; "us"; "we"; "our"; "ours"; "ourselves"]
  /\ findTermInstances text2 "Customer, us" = ["customer"; "our"].
Proof. repeat split. Qed.

(** C1, as stated, fails: the result does not hold ["Customer"]. *)
Lemma scenario2_no_capitalised_term :
  ~ (In "Customer" (findTermInstances text2 "Customer, us")
     /\ In "our" (findTermInstances text2 "Customer, us")).
Proof.
  vm_compute. intros [[H | [H | []]] _]; discriminate H.
Qed.

(** C8, as the program computes it.  For the text
    ["My rights cannot be abridged by myself, only the Client"] and the terms
    ["I, Client"], the term ["I"] brings in the 1st person singular class, of
    which only ["I"] is case sensitive; the result is ["client"] followed by
    ["my"], and ["myself"] is not in it because the token is ["myself,"]. *)
Theorem scenario3_result :
  normalizedTerms "I, Client" = ["I"; "client"]
  /\ additionalPronouns (normalizedTerms "I, Client") =
     ["I"; "me"; "my"; "mine"; "myself"]
  /\ caseSensitiveTerms "I, Client" = ["I"]
  /\ caseInsensitiveTerms "I, Client" =
     ["client"; "me"; "my"; "mine"; "myself"]
  /\ findTermInstances text3 "I, Client" = ["client"; "my"]
  /\ In "myself," (tokensOf text3)
  /\ ~ In "myself" (tokensOf text3)
  /\ ~ In "myself" (findTermInstances text3 "I, Client").
Proof.
  repeat split; vm_compute; try tauto;
    intros H; repeat (destruct H as [H | H]; [discriminate H|]); exact H.
Qed.

(** C8, as stated, fails: the result does not hold ["Client"]. *)
Lemma scenario3_no_capitalised_term :
  ~ (In "Client" (findTermInstances text3 "I, Client")
     /\ In "my" (findTermInstances text3 "I, Client")
     /\ ~ In "myself" (findTermInstances text3 "I, Client")).
Proof.
  vm_compute. intros [[H | [H | []]] _]; discriminate H.
Qed.

(** ** Splitting on a single space *)

Lemma prefix_empty s : prefix "" s = true.
Proof. now destruct s. Qed.

Lemma append_empty_r s : (s ++ "")%string = s.
Proof. induction s as [|c s IH]; simpl; [reflexivity | now rewrite IH]. Qed.

Lemma append_assoc s t u : ((s ++ t) ++ u)%string = (s ++ (t ++ u))%string.
Proof. induction s as [|c s IH]; simpl; [reflexivity | now rewrite IH]. Qed.

Lemma splitScan_space_step piece c s :
  splitScan " " 0 piece (String c s) =
  if Ascii.eqb c " " then piece :: splitScan " " 0 "" s
  else splitScan " " 0 (piece ++ String c "")%string s.
Proof.
  cbn [splitScan prefix String.length Nat.sub]. rewrite prefix_empty.
  destruct (ascii_dec " " c) as [<- | Hne]; [reflexivity|].
  destruct (Ascii.eqb c " ") eqn:E; [|reflexivity].
  apply Ascii.eqb_eq in E. congruence.
Qed.

Lemma splitScan_space_nonempty s : forall piece,
  splitScan " " 0 piece s <> [].
Proof.
  induction s as [|c s IH]; intros piece; [discriminate|].
  rewrite splitScan_space_step. destruct (Ascii.eqb c " ");
    [discriminate | apply IH].
Qed.

Lemma join_cons sep x xs :
  xs <> [] -> join sep (x :: xs) = (x ++ sep ++ join sep xs)%string.
Proof. destruct xs; [contradiction | reflexivity]. Qed.

Lemma join_splitScan_space s : forall piece,
  join " " (splitScan " " 0 piece s) = (piece ++ s)%string.
Proof.
  induction s as [|c s IH]; intros piece.
  - simpl. now rewrite append_empty_r.
  - rewrite splitScan_space_step. destruct (Ascii.eqb c " ") eqn:E.
    + apply Ascii.eqb_eq in E. subst c.
      rewrite join_cons by apply splitScan_space_nonempty.
      now rewrite IH.
    + rewrite IH, append_assoc. reflexivity.
Qed.

Lemma in_chars_app c s t :
  In c (list_ascii_of_string (s ++ t)) <->
  In c (list_ascii_of_string s) \/ In c (list_ascii_of_string t).
Proof. induction s as [|d s IH]; simpl; [tauto | rewrite IH; tauto]. Qed.

Lemma splitScan_space_free s : forall piece tok,
  ~ In " "%char (list_ascii_of_string piece) ->
  In tok (splitScan " " 0 piece s) ->
  ~ In " "%char (list_ascii_of_string tok).
Proof.
  induction s as [|c s IH]; intros piece tok Hpiece.
  - simpl. intros [<- | []]. assumption.
  - rewrite splitScan_space_step. destruct (Ascii.eqb c " ") eqn:E.
    + intros [<- | H]; [assumption|]. apply (IH "" tok); [intros [] | exact H].
    + apply IH. rewrite in_chars_app. simpl.
      apply Ascii.eqb_neq in E. intuition congruence.
Qed.

Lemma splitScan_double_space a b : forall piece,
  In "" (splitScan " " 0 piece (a ++ "  " ++ b)%string).
Proof.
  induction a as [|c a IH]; intros piece.
  - simpl append. rewrite !splitScan_space_step. simpl. auto.
  - simpl append. rewrite splitScan_space_step.
    destruct (Ascii.eqb c " "); [right|]; apply IH.
Qed.

Lemma tokensOf_double_space a b : In "" (tokensOf (a ++ "  " ++ b)%string).
Proof. apply splitScan_double_space. Qed.

(** C7.  The text is split at every single space and nowhere else: joining
    the tokens with a space gives the text back (nothing is trimmed or
    collapsed and punctuation stays where it is), no token holds a space, and
    these tokens are the ones [findTermInstances] matches against.  A text
    with two consecutive spaces has an empty token.  In the third scenario
    the token is ["myself,"], which is not the term ["myself"]. *)
Theorem tokensOf_spec :
  (forall text terms,
      findTermInstances text terms =
      findCaseSensitiveTermInstances (split text " ") (caseSensitiveTerms terms)
      ++ findCaseInsensitiveTermInstances
           (split text " ") (caseInsensitiveTerms terms))
  /\ (forall text, join " " (split text " ") = text)
  /\ (forall text tok, In tok (split text " ") ->
                       ~ In " "%char (list_ascii_of_string tok))
  /\ (forall a b, In "" (split (a ++ "  " ++ b)%string " "))
  /\ split "a  b" " " = ["a"; ""; "b"]
  /\ split " a " " " = [""; "a"; ""]
  /\ In "myself," (split text3 " ")
  /\ ~ In "myself" (split text3 " ")
  /\ "myself," <> "myself".
Proof.
  split; [|split; [|split; [|split]]].
  - apply findTermInstances_concat.
  - intros text. apply (join_splitScan_space text "").
  - intros text tok. apply splitScan_space_free. intros [].
  - apply tokensOf_double_space.
  - repeat split; try discriminate.
    + vm_compute. tauto.
    + vm_compute. intros H.
      repeat (destruct H as [H | H]; [discriminate H|]). exact H.
Qed.

Lemma tokensOf_spec_witness :
  ~ In " "%char (list_ascii_of_string "myself,").
Proof.
  apply (proj1 (proj2 (proj2 tokensOf_spec)) text3 "myself,").
  vm_compute. tauto.
Defined.

(** ** An empty term string *)

Lemma findTermInstances_no_terms text :
  findTermInstances text "" =
  if includes (map toLowerCase (tokensOf text)) "" then [""] else [].
Proof. apply findTermInstances_concat. Qed.

Lemma empty_token_lowered toks :
  includes (map toLowerCase toks) "" = includes toks "".
Proof.
  destruct (includes toks "") eqn:E.
  - apply includes_In in E. now apply (includes_map_toLowerCase toks "").
  - apply includes_false. apply includes_false in E.
    rewrite in_map_iff. intros [tok [Hlow Hin]].
    apply (proj1 (toLowerCase_empty tok)) in Hlow. subst tok. contradiction.
Qed.

(** C10.  With the empty terms string, the result is the empty string alone
    when the text has an empty token, which is so for the empty text and for
    a text with two consecutive spaces, and it is empty when the text has no
    empty token. *)
Theorem findTermInstances_empty_terms :
  (forall text, In "" (tokensOf text) ->
                findTermInstances text "" = [""]
                /\ In "" (findTermInstances text ""))
  /\ (forall text, ~ In "" (tokensOf text) -> findTermInstances text "" = [])
  /\ findTermInstances "" "" = [""]
  /\ (forall a b, findTermInstances (a ++ "  " ++ b)%string "" = [""]).
Proof.
  assert (Hyes : forall text, In "" (tokensOf text) ->
                              findTermInstances text "" = [""]).
  { intros text H. rewrite findTermInstances_no_terms, empty_token_lowered.
    apply includes_In in H. now rewrite H. }
  split; [|split; [|split]].
  - intros text H. rewrite (Hyes text H). simpl. auto.
  - intros text H. rewrite findTermInstances_no_terms, empty_token_lowered.
    apply includes_false in H. now rewrite H.
  - reflexivity.
  - intros a b. apply Hyes, tokensOf_double_space.
Qed.

Lemma findTermInstances_empty_terms_witness :
  (findTermInstances " a" "" = [""] /\ In "" (findTermInstances " a" ""))
  /\ findTermInstances "a b" "" = [].
Proof.
  split.
  - apply (proj1 findTermInstances_empty_terms " a"). vm_compute. auto.
  - apply (proj1 (proj2 findTermInstances_empty_terms) "a b").
    vm_compute. intros [H | [H | []]]; discriminate H.
Defined.

(** ** Further properties of the search *)

(** *** The merged terms are in normal form *)

Lemma normalize_idem t : normalize (normalize t) = normalize t.
Proof.
  unfold normalize. destruct (isTermCaseSensitive t) eqn:E.
  - now rewrite E.
  - now rewrite isTermCaseSensitive_toLowerCase, E, toLowerCase_idem.
Qed.

Lemma normalize_fixed_iff t :
  normalize t = t <-> isTermCaseSensitive t = true \/ toLowerCase t = t.
Proof.
  unfold normalize. destruct (isTermCaseSensitive t); split; auto.
  intros [H | H]; [discriminate | assumption].
Qed.

Lemma mergedTerms_normal terms m :
  In m (mergedTerms terms) -> normalize m = m.
Proof.
  rewrite mergedTerms_In, additionalPronouns_In.
  intros [H | [pronounClass [Hcl [_ Hm]]]].
  - unfold normalizedTerms in H. apply in_map_iff in H.
    destruct H as [t [<- _]]. apply normalize_idem.
  - apply normalize_fixed_iff. now apply pronoun_casing with pronounClass.
Qed.

Lemma caseInsensitiveTerms_In terms m :
  In m (caseInsensitiveTerms terms) <->
  In m (mergedTerms terms) /\ isTermCaseSensitive m = false.
Proof.
  unfold caseInsensitiveTerms. now rewrite filter_In, negb_true_iff.
Qed.

Lemma caseSensitiveTerms_In terms m :
  In m (caseSensitiveTerms terms) <->
  In m (mergedTerms terms) /\ isTermCaseSensitive m = true.
Proof. unfold caseSensitiveTerms. now rewrite filter_In. Qed.

Lemma caseInsensitiveTerms_lowercase terms m :
  In m (caseInsensitiveTerms terms) -> toLowerCase m = m.
Proof.
  rewrite caseInsensitiveTerms_In. intros [Hm Hci].
  apply mergedTerms_normal in Hm. unfold normalize in Hm.
  now rewrite Hci in Hm.
Qed.

Lemma caseInsensitiveTerms_map_lower terms :
  map toLowerCase (caseInsensitiveTerms terms) = caseInsensitiveTerms terms.
Proof.
  rewrite <- map_id. apply map_ext_in.
  intros m Hm. now apply caseInsensitiveTerms_lowercase with terms.
Qed.

Lemma caseInsensitiveMatches_filter text terms :
  caseInsensitiveMatches text terms =
  filter (fun term => includes (map toLowerCase (tokensOf text)) term)
         (caseInsensitiveTerms terms).
Proof.
  unfold caseInsensitiveMatches, findCaseInsensitiveTermInstances. cbv zeta.
  replace (map (fun term => toLowerCase term) (caseInsensitiveTerms terms))
    with (caseInsensitiveTerms terms); [reflexivity|].
  symmetry. apply caseInsensitiveTerms_map_lower.
Qed.

(** *** Deduplication within the call *)

Lemma matches_NoDup text terms :
  NoDup (caseSensitiveMatches text terms ++ caseInsensitiveMatches text terms).
Proof.
  rewrite caseInsensitiveMatches_filter.
  unfold caseSensitiveMatches, findCaseSensitiveTermInstances.
  assert (Hnd : NoDup (mergedTerms terms)) by apply newSet_NoDup.
  apply NoDup_app.
  - unfold caseSensitiveTerms. now repeat apply NoDup_filter.
  - unfold caseInsensitiveTerms. now repeat apply NoDup_filter.
  - intros r Hcs Hci. apply filter_In in Hcs, Hci.
    destruct Hcs as [Hcs _], Hci as [Hci _].
    apply caseSensitiveTerms_In in Hcs. apply caseInsensitiveTerms_In in Hci.
    destruct Hcs as [_ Hcs], Hci as [_ Hci]. congruence.
Qed.

(** C5.  In every call to [findTermInstances] the list that is partitioned
    into the case-sensitive and the case-insensitive subset is the merged
    term list, which holds exactly the normalized supplied terms and the
    expansion pronouns and holds no string twice.  So neither subset has a
    duplicate, and a term supplied twice, or supplied and also brought in by
    its class, is searched for and reported once. *)
Theorem mergedTerms_NoDup text terms :
  findTermInstances text terms =
  findCaseSensitiveTermInstances
    (split text " ")
    (filter (fun term => isTermCaseSensitive term) (mergedTerms terms))
  ++ findCaseInsensitiveTermInstances
       (split text " ")
       (filter (fun term => negb (isTermCaseSensitive term))
               (mergedTerms terms))
  /\ NoDup (mergedTerms terms)
  /\ (forall m, In m (mergedTerms terms) <->
                (exists t, In t (split terms ", ")
                           /\ m = if isTermCaseSensitive t then t
                                  else toLowerCase t)
                \/ In m (additionalPronouns (normalizedTerms terms)))
  /\ NoDup (filter (fun term => isTermCaseSensitive term) (mergedTerms terms))
  /\ NoDup (filter (fun term => negb (isTermCaseSensitive term))
                   (mergedTerms terms))
  /\ (forall r, count_occ string_dec (findTermInstances text terms) r <= 1).
Proof.
  assert (H : NoDup (mergedTerms terms)) by apply newSet_NoDup.
  split; [apply findTermInstances_concat|]. split; [assumption|].
  split; [|split; [|split]].
  - intros m. rewrite mergedTerms_In. unfold normalizedTerms.
    rewrite in_map_iff. unfold normalize.
    split; (intros [[t [H1 H2]] | H']; [left; exists t; auto | now right]).
  - now apply NoDup_filter.
  - now apply NoDup_filter.
  - rewrite findTermInstances_concat. apply NoDup_count_occ.
    apply matches_NoDup.
Qed.

(** X1.  Every merged term is in normal form: it is case sensitive or it is
    its own lowercased form.  So the case-insensitive subset is already in
    lowercase, the matcher's lowercasing of the terms changes nothing, and
    the result is the merged terms of each subset filtered by their presence
    among the tokens (the lowercased tokens for the second subset). *)
Theorem mergedTerms_normal_form text terms :
  (forall m, In m (mergedTerms terms) ->
             isTermCaseSensitive m = true \/ toLowerCase m = m)
  /\ map toLowerCase (caseInsensitiveTerms terms) = caseInsensitiveTerms terms
  /\ findTermInstances text terms =
     filter (fun term => includes (tokensOf text) term)
            (caseSensitiveTerms terms)
     ++ filter (fun term => includes (map toLowerCase (tokensOf text)) term)
               (caseInsensitiveTerms terms).
Proof.
  split; [|split].
  - intros m Hm. apply normalize_fixed_iff. now apply mergedTerms_normal with terms.
  - apply caseInsensitiveTerms_map_lower.
  - rewrite findTermInstances_concat, caseInsensitiveMatches_filter.
    reflexivity.
Qed.

(** X2.  A string is in the result exactly when it is a merged term that is
    found in the text: among the tokens as they are when the term is case
    sensitive, among the lowercased tokens otherwise.  So nothing is reported
    that is not a search term, and nothing that the text does not hold. *)
Theorem findTermInstances_sound_complete text terms r :
  In r (findTermInstances text terms) <->
  In r (mergedTerms terms)
  /\ (if isTermCaseSensitive r then In r (tokensOf text)
      else exists tok, In tok (tokensOf text) /\ toLowerCase tok = r).
Proof.
  rewrite findTermInstances_In. split.
  - intros [[Hm [Hcs Htok]] | [term [Hm [Hci [-> Hlow]]]]].
    + now rewrite Hcs.
    + assert (Hfix : toLowerCase term = term).
      { apply caseInsensitiveTerms_lowercase with terms.
        now apply caseInsensitiveTerms_In. }
      rewrite Hfix in *. rewrite Hci. split; [assumption|].
      apply in_map_iff in Hlow. destruct Hlow as [tok [H1 H2]]. eauto.
  - intros [Hm Hfound]. destruct (isTermCaseSensitive r) eqn:E; [left; auto|].
    right. exists r.
    assert (Hfix : toLowerCase r = r).
    { apply caseInsensitiveTerms_lowercase with terms.
      now apply caseInsensitiveTerms_In. }
    destruct Hfound as [tok [H1 H2]]. repeat split; auto.
    rewrite <- H2. now apply in_map.
Qed.

(** X3.  The result never lists a string twice, whatever the text and the
    terms: the two subsets of the merged terms are duplicate free and share
    no element, and lowercasing does not merge two case-insensitive terms
    because they are in lowercase already. *)
Theorem findTermInstances_NoDup text terms :
  NoDup (findTermInstances text terms).
Proof.
  rewrite findTermInstances_concat, caseInsensitiveMatches_filter.
  unfold caseSensitiveMatches, findCaseSensitiveTermInstances.
  assert (Hnd : NoDup (mergedTerms terms)) by apply newSet_NoDup.
  apply NoDup_app.
  - unfold caseSensitiveTerms. now repeat apply NoDup_filter.
  - unfold caseInsensitiveTerms. now repeat apply NoDup_filter.
  - intros a Ha Hb. apply filter_In in Ha, Hb.
    destruct Ha as [Ha _], Hb as [Hb _].
    apply caseSensitiveTerms_In in Ha. apply caseInsensitiveTerms_In in Hb.
    destruct Ha as [_ Ha], Hb as [_ Hb]. congruence.
Qed.

(** X4.  A supplied term that is a token of the text is reported, in its
    normalized form; a supplied term that is not case sensitive is reported,
    in lowercase, as soon as some token has the same lowercased form. *)
Theorem supplied_term_reported text terms t :
  In t (split terms ", ") ->
  (In t (tokensOf text) -> In (normalize t) (findTermInstances text terms))
  /\ (isTermCaseSensitive t = false ->
      (exists tok, In tok (tokensOf text) /\ toLowerCase tok = toLowerCase t) ->
      In (toLowerCase t) (findTermInstances text terms)).
Proof.
  intros Ht.
  assert (Hm : In (normalize t) (mergedTerms terms)).
  { apply mergedTerms_In. left. unfold normalizedTerms. now apply in_map. }
  assert (Hci : isTermCaseSensitive t = false ->
                (exists tok, In tok (tokensOf text)
                             /\ toLowerCase tok = toLowerCase t) ->
                In (toLowerCase t) (findTermInstances text terms)).
  { intros E [tok [Htok Hlow]]. apply findTermInstances_In. right.
    unfold normalize in Hm. rewrite E in Hm. exists (toLowerCase t).
    rewrite isTermCaseSensitive_toLowerCase, toLowerCase_idem.
    repeat split; auto. rewrite <- Hlow. now apply in_map. }
  split; [|exact Hci].
  intros Htok. destruct (isTermCaseSensitive t) eqn:E.
  - apply findTermInstances_In. left. unfold normalize in *.
    rewrite E in *. auto.
  - unfold normalize. rewrite E. apply Hci; [reflexivity|]. eauto.
Qed.

Lemma supplied_term_reported_witness :
  (In "Customer" (tokensOf text1) ->
   In (normalize "Customer") (findTermInstances text1 "Customer, you"))
  /\ (isTermCaseSensitive "Customer" = false ->
      (exists tok, In tok (tokensOf text1)
                   /\ toLowerCase tok = toLowerCase "Customer") ->
      In (toLowerCase "Customer") (findTermInstances text1 "Customer, you")).
Proof.
  apply (supplied_term_reported text1 "Customer, you" "Customer").
  vm_compute. auto.
Defined.

(** *** Which supplied terms bring in a pronoun class *)

Lemma pronoun_case_sensitive pronounClass m :
  In pronounClass (Object_values PRONOUNS) -> In m pronounClass ->
  isTermCaseSensitive m = true -> m = "I".
Proof.
  simpl. intros [<- | [<- | [<- | []]]]; simpl; intros H;
    repeat (destruct H as [<- | H];
            [vm_compute; intros E; try discriminate E; reflexivity|]);
    destruct H.
Qed.

Lemma result_in_mergedTerms text terms r :
  In r (findTermInstances text terms) -> In r (mergedTerms terms).
Proof.
  rewrite findTermInstances_In.
  intros [[Hm _] | [term [Hm [Hci [-> _]]]]]; [assumption|].
  replace (toLowerCase term) with term; [assumption|].
  symmetry. apply caseInsensitiveTerms_lowercase with terms.
  now apply caseInsensitiveTerms_In.
Qed.

Lemma supplied_trigger terms pronounClass :
  In pronounClass (Object_values PRONOUNS) ->
  (triggered (normalizedTerms terms) pronounClass = true <->
   exists t, In t (split terms ", ")
             /\ ((t = "I" /\ In "I" pronounClass)
                 \/ (isTermCaseSensitive t = false
                     /\ In (toLowerCase t) pronounClass))).
Proof.
  intros Hcl. rewrite triggered_iff. unfold normalizedTerms. split.
  - intros [m [Hm Hin]]. apply in_map_iff in Hm.
    destruct Hm as [t [<- Ht]]. exists t. split; [assumption|].
    unfold normalize in Hin. destruct (isTermCaseSensitive t) eqn:E.
    + left. assert (t = "I") by
        now apply pronoun_case_sensitive with pronounClass.
      subst t. auto.
    + right. auto.
  - intros [t [Ht [[-> HI] | [E Hin]]]].
    + exists "I". split; [|assumption].
      now apply (in_map normalize _ "I") in Ht.
    + exists (toLowerCase t). split; [|assumption].
      apply (in_map normalize) in Ht. unfold normalize in Ht at 1.
      now rewrite E in Ht.
Qed.

(** X5.  Which supplied terms make [findTermInstances] search for the
    pronouns of a class.  A supplied term triggers a class when it is ["I"]
    and the class lists ["I"], or when it is not case sensitive and its
    lowercased form is listed in the class: then every pronoun of the class
    that is a token of the text is in the result.  Conversely every element
    of the result is a normalized supplied term or a pronoun of a class
    triggered in that way.  A supplied term that is case sensitive and is
    not ["I"] (such as the lowercase ["i"]) triggers nothing: when all the
    supplied terms are of that kind, the result holds supplied terms only. *)
Theorem expansion_trigger text terms :
  (forall pronounClass t m,
      In pronounClass (Object_values PRONOUNS) ->
      In t (split terms ", ") ->
      (t = "I" /\ In "I" pronounClass)
      \/ (isTermCaseSensitive t = false /\ In (toLowerCase t) pronounClass) ->
      In m pronounClass -> In m (split text " ") ->
      In m (findTermInstances text terms))
  /\ (forall r,
         In r (findTermInstances text terms) ->
         (exists t, In t (split terms ", ")
                    /\ r = if isTermCaseSensitive t then t else toLowerCase t)
         \/ (exists pronounClass t,
                In pronounClass (Object_values PRONOUNS)
                /\ In r pronounClass
                /\ In t (split terms ", ")
                /\ ((t = "I" /\ In "I" pronounClass)
                    \/ (isTermCaseSensitive t = false
                        /\ In (toLowerCase t) pronounClass))))
  /\ ((forall t, In t (split terms ", ") ->
                 isTermCaseSensitive t = true /\ t <> "I") ->
      forall r, In r (findTermInstances text terms) ->
                In r (split terms ", ")).
Proof.
  assert (Hsound : forall r,
             In r (findTermInstances text terms) ->
             (exists t, In t (split terms ", ") /\ r = normalize t)
             \/ (exists pronounClass t,
                    In pronounClass (Object_values PRONOUNS)
                    /\ In r pronounClass
                    /\ In t (split terms ", ")
                    /\ ((t = "I" /\ In "I" pronounClass)
                        \/ (isTermCaseSensitive t = false
                            /\ In (toLowerCase t) pronounClass)))).
  { intros r Hr. apply result_in_mergedTerms in Hr.
    apply mergedTerms_In in Hr. destruct Hr as [Hr | Hr].
    - left. unfold normalizedTerms in Hr. apply in_map_iff in Hr.
      destruct Hr as [t [<- Ht]]. eauto.
    - right. apply additionalPronouns_In in Hr.
      destruct Hr as [pronounClass [Hcl [Htrig Hr]]].
      apply (supplied_trigger terms pronounClass Hcl) in Htrig.
      destruct Htrig as [t [Ht Hcase]]. exists pronounClass, t. auto. }
  split; [|split].
  - intros pronounClass t m Hcl Ht Hcase Hm Htok.
    apply merged_token_reported; try assumption.
    + apply mergedTerms_In. right. apply additionalPronouns_In.
      exists pronounClass. repeat split; try assumption.
      apply (supplied_trigger terms pronounClass Hcl). eauto.
    + now apply pronoun_casing with pronounClass.
  - exact Hsound.
  - intros Hall r Hr. destruct (Hsound r Hr) as [[t [Ht ->]] | Htrig].
    + unfold normalize. destruct (Hall t Ht) as [-> _]. assumption.
    + destruct Htrig as [pronounClass [t [_ [_ [Ht [[-> _] | [E _]]]]]]];
        destruct (Hall _ Ht) as [Hcs Hne]; congruence.
Qed.

Lemma expansion_trigger_witness :
  In "my" (findTermInstances "it is my dog" "Customer, ME")
  /\ (forall r, In r (findTermInstances "i am me" "i") -> In r (split "i" ", ")).
Proof.
  split.
  - apply (proj1 (expansion_trigger "it is my dog" "Customer, ME")
             ["I"; "me"; "my"; "mine"; "myself"] "ME" "my").
    + simpl. auto.
    + vm_compute. auto.
    + right. split; [reflexivity | simpl; auto].
    + simpl. auto.
    + vm_compute. auto.
  - apply (proj2 (proj2 (expansion_trigger "i am me" "i"))).
    intros t Ht. vm_compute in Ht. destruct Ht as [<- | []].
    split; [reflexivity | discriminate].
Defined.

(** *** Texts put together with a space *)

Lemma splitScan_space_app a b : forall piece,
  splitScan " " 0 piece (a ++ " " ++ b)%string =
  splitScan " " 0 piece a ++ splitScan " " 0 "" b.
Proof.
  induction a as [|c a IH]; intros piece.
  - simpl append. now rewrite splitScan_space_step.
  - simpl append. rewrite !splitScan_space_step.
    destruct (Ascii.eqb c " "); [simpl; f_equal|]; apply IH.
Qed.

Lemma tokensOf_app a b :
  tokensOf (a ++ " " ++ b)%string = tokensOf a ++ tokensOf b.
Proof. apply splitScan_space_app. Qed.

(** X6.  The tokens of two texts put together with a space are the tokens of
    the first followed by those of the second, and a string is in the result
    for the joined text exactly when it is in the result for one of the two
    texts: a longer text never loses a match. *)
Theorem findTermInstances_text_app a b terms :
  split (a ++ " " ++ b)%string " " = split a " " ++ split b " "
  /\ (forall r,
         In r (findTermInstances (a ++ " " ++ b)%string terms) <->
         In r (findTermInstances a terms) \/ In r (findTermInstances b terms)).
Proof.
  split; [apply tokensOf_app|].
  intros r. rewrite !findTermInstances_In, tokensOf_app, map_app.
  setoid_rewrite in_app_iff. split.
  - intros [[Hm [Hcs [H | H]]] | [t [Hm [Hci [Hr [H | H]]]]]]; eauto 10.
  - intros [[[Hm [Hcs H]] | [t [Hm [Hci [Hr H]]]]]
           | [[Hm [Hcs H]] | [t [Hm [Hci [Hr H]]]]]]; eauto 10.
Qed.

(** *** The casing of the text

    The lemmas that relate the two case maps to each other are facts of the
    ASCII maps; the theorem they serve is stated for ASCII texts. *)

Lemma lowerChar_upperChar c : lowerChar (upperChar c) = lowerChar c.
Proof. destruct c as [[] [] [] [] [] [] [] []]; reflexivity. Qed.

Lemma lowerChar_space c : Ascii.eqb (lowerChar c) " " = Ascii.eqb c " ".
Proof. destruct c as [[] [] [] [] [] [] [] []]; reflexivity. Qed.

Lemma upperChar_space c : Ascii.eqb (upperChar c) " " = Ascii.eqb c " ".
Proof. destruct c as [[] [] [] [] [] [] [] []]; reflexivity. Qed.

Lemma toLowerCase_toUpperCase s : toLowerCase (toUpperCase s) = toLowerCase s.
Proof.
  induction s as [|c s IH]; simpl; [reflexivity|].
  now rewrite lowerChar_upperChar, IH.
Qed.

Lemma toLowerCase_app s t :
  toLowerCase (s ++ t) = (toLowerCase s ++ toLowerCase t)%string.
Proof. induction s as [|c s IH]; simpl; [reflexivity | now rewrite IH]. Qed.

Lemma toUpperCase_app s t :
  toUpperCase (s ++ t) = (toUpperCase s ++ toUpperCase t)%string.
Proof. induction s as [|c s IH]; simpl; [reflexivity | now rewrite IH]. Qed.

Lemma splitScan_space_lower s : forall piece,
  splitScan " " 0 (toLowerCase piece) (toLowerCase s) =
  map toLowerCase (splitScan " " 0 piece s).
Proof.
  induction s as [|c s IH]; intros piece; [reflexivity|].
  cbn [toLowerCase]. rewrite !splitScan_space_step, lowerChar_space.
  destruct (Ascii.eqb c " ").
  - cbn [map]. f_equal. apply (IH "").
  - rewrite <- IH, toLowerCase_app. reflexivity.
Qed.

Lemma splitScan_space_upper s : forall piece,
  splitScan " " 0 (toUpperCase piece) (toUpperCase s) =
  map toUpperCase (splitScan " " 0 piece s).
Proof.
  induction s as [|c s IH]; intros piece; [reflexivity|].
  cbn [toUpperCase]. rewrite !splitScan_space_step, upperChar_space.
  destruct (Ascii.eqb c " ").
  - cbn [map]. f_equal. apply (IH "").
  - rewrite <- IH, toUpperCase_app. reflexivity.
Qed.

Lemma tokensOf_toLowerCase text :
  tokensOf (toLowerCase text) = map toLowerCase (tokensOf text).
Proof. apply (splitScan_space_lower text ""). Qed.

Lemma tokensOf_toUpperCase text :
  tokensOf (toUpperCase text) = map toUpperCase (tokensOf text).
Proof. apply (splitScan_space_upper text ""). Qed.

Lemma lowered_tokens_toLowerCase text :
  map toLowerCase (tokensOf (toLowerCase text)) =
  map toLowerCase (tokensOf text).
Proof.
  rewrite tokensOf_toLowerCase, map_map. apply map_ext.
  apply toLowerCase_idem.
Qed.

Lemma lowered_tokens_toUpperCase text :
  map toLowerCase (tokensOf (toUpperCase text)) =
  map toLowerCase (tokensOf text).
Proof.
  rewrite tokensOf_toUpperCase, map_map. apply map_ext.
  apply toLowerCase_toUpperCase.
Qed.

(** X7.  For a text of ASCII code units: lowercasing or uppercasing the
    whole text splits into the lowercased or uppercased tokens and leaves the
    case-insensitive matches as they are; when no merged term is case
    sensitive the whole result is the same. *)
Theorem findTermInstances_text_casing text terms :
  isAscii text = true ->
  split (toLowerCase text) " " = map toLowerCase (split text " ")
  /\ split (toUpperCase text) " " = map toUpperCase (split text " ")
  /\ findCaseInsensitiveTermInstances
       (split (toLowerCase text) " ") (caseInsensitiveTerms terms) =
     findCaseInsensitiveTermInstances
       (split text " ") (caseInsensitiveTerms terms)
  /\ findCaseInsensitiveTermInstances
       (split (toUpperCase text) " ") (caseInsensitiveTerms terms) =
     findCaseInsensitiveTermInstances
       (split text " ") (caseInsensitiveTerms terms)
  /\ (caseSensitiveTerms terms = [] ->
      findTermInstances (toLowerCase text) terms = findTermInstances text terms
      /\ findTermInstances (toUpperCase text) terms =
         findTermInstances text terms).
Proof.
  intros _.
  assert (Hlow : caseInsensitiveMatches (toLowerCase text) terms =
                 caseInsensitiveMatches text terms).
  { rewrite !caseInsensitiveMatches_filter.
    now rewrite (lowered_tokens_toLowerCase text). }
  assert (Hup : caseInsensitiveMatches (toUpperCase text) terms =
                caseInsensitiveMatches text terms).
  { rewrite !caseInsensitiveMatches_filter.
    now rewrite (lowered_tokens_toUpperCase text). }
  split; [apply tokensOf_toLowerCase|].
  split; [apply tokensOf_toUpperCase|].
  split; [exact Hlow|]. split; [exact Hup|].
  intros Hcs. rewrite !findTermInstances_concat, Hlow, Hup.
  unfold caseSensitiveMatches. rewrite Hcs. auto.
Qed.

Lemma findTermInstances_text_casing_witness :
  findTermInstances (toLowerCase text2) "Customer, us" =
  findTermInstances text2 "Customer, us"
  /\ findTermInstances (toUpperCase text2) "Customer, us" =
     findTermInstances text2 "Customer, us".
Proof.
  apply (proj2 (proj2 (proj2 (proj2
           (findTermInstances_text_casing text2 "Customer, us"
              eq_refl))))).
  reflexivity.
Defined.

(** *** Splitting loses nothing, whatever the separator *)

Lemma prefix_split sep : forall s,
  prefix sep s = true -> exists rest, s = (sep ++ rest)%string.
Proof.
  induction sep as [|a sep IH]; intros s H.
  - exists s. reflexivity.
  - destruct s as [|b s]; [discriminate H|]. simpl in H.
    destruct (ascii_dec a b) as [<- | Hne]; [|discriminate H].
    destruct (IH s H) as [rest ->]. exists rest. reflexivity.
Qed.

Lemma splitScan_skip sep pre rest : forall piece,
  splitScan sep (String.length pre) piece (pre ++ rest)%string =
  splitScan sep 0 piece rest.
Proof.
  induction pre as [|c pre IH]; intros piece; [reflexivity|].
  simpl. apply IH.
Qed.

Lemma splitScan_nonempty sep s : forall skip piece,
  splitScan sep skip piece s <> [].
Proof.
  induction s as [|c s IH]; intros skip piece; [discriminate|].
  simpl. destruct skip as [|k]; [|apply IH].
  destruct (match sep with "" => true | String _ _ => _ end);
    [discriminate | apply IH].
Qed.

Lemma append_length s t :
  String.length (s ++ t) = String.length s + String.length t.
Proof. induction s as [|c s IH]; simpl; [reflexivity | now rewrite IH]. Qed.

Lemma join_splitScan a sep' n : forall s piece,
  String.length s <= n ->
  join (String a sep') (splitScan (String a sep') 0 piece s) =
  (piece ++ s)%string.
Proof.
  induction n as [|n IH]; intros s piece Hlen.
  - destruct s; [|simpl in Hlen; lia]. simpl. now rewrite append_empty_r.
  - destruct s as [|c s]; [simpl; now rewrite append_empty_r|].
    cbn [splitScan]. destruct (prefix (String a sep') (String c s)) eqn:E.
    + apply prefix_split in E. destruct E as [rest E].
      injection E as -> ->.
      cbn [String.length Nat.sub]. rewrite Nat.sub_0_r, splitScan_skip.
      rewrite join_cons by apply splitScan_nonempty.
      rewrite IH; [reflexivity|].
      simpl in Hlen. rewrite append_length in Hlen. lia.
    + rewrite IH by (simpl in Hlen; lia).
      now rewrite append_assoc.
Qed.

Lemma join_codeUnits s : join "" (codeUnits s) = s.
Proof.
  induction s as [|c s IH]; [reflexivity|].
  cbn [codeUnits]. destruct s as [|d s]; [reflexivity|].
  rewrite join_cons by discriminate. now rewrite IH.
Qed.

(** X8.  Whatever the separator, joining the pieces of a split with the
    separator gives the string back, and a split on a non-empty separator
    has at least one piece.  So the term list of any terms string, however
    malformed, is never empty and loses no code unit of the string. *)
Theorem split_join s sep :
  join sep (split s sep) = s
  /\ (sep <> "" -> split s sep <> [])
  /\ join ", " (split s ", ") = s
  /\ normalizedTerms s <> [].
Proof.
  assert (H : join sep (split s sep) = s).
  { destruct sep as [|a sep']; [apply join_codeUnits|].
    apply (join_splitScan a sep' (String.length s) s ""). lia. }
  split; [exact H|]. split; [|split].
  - destruct sep as [|a sep']; [congruence|].
    intros _. apply splitScan_nonempty.
  - apply (join_splitScan "," " " (String.length s) s ""). lia.
  - unfold normalizedTerms. intros Hnil. apply map_eq_nil in Hnil.
    revert Hnil. apply splitScan_nonempty.
Qed.

Lemma split_join_witness : split "a, b" ", " <> [].
Proof.
  apply (proj1 (proj2 (split_join "a, b" ", "))). discriminate.
Defined.

(** *** Term lists put together with the separator *)

Lemma prefix_comma_space_app c a rest :
  prefix ", " (String c (a ++ ", " ++ rest)) = prefix ", " (String c a).
Proof.
  cbn [prefix]. destruct (ascii_dec "," c); [|reflexivity].
  destruct a as [|d a]; cbn [append prefix].
  - destruct (ascii_dec " " ","); [discriminate | reflexivity].
  - destruct (ascii_dec " " d); [|reflexivity]. now rewrite !prefix_empty.
Qed.

Lemma prefix_comma_space_length s :
  prefix ", " s = true -> 2 <= String.length s.
Proof.
  intros H. apply prefix_split in H. destruct H as [rest ->]. simpl. lia.
Qed.

Lemma splitScan_comma_space_app a b : forall skip piece,
  skip <= String.length a ->
  splitScan ", " skip piece (a ++ ", " ++ b)%string =
  splitScan ", " skip piece a ++ splitScan ", " 0 "" b.
Proof.
  induction a as [|c a IH]; intros skip piece Hskip.
  - simpl in Hskip. assert (skip = 0) by lia. subst skip.
    cbn [append splitScan prefix]. rewrite prefix_empty.
    destruct (ascii_dec "," ","); [|contradiction].
    destruct (ascii_dec " " " "); [|contradiction]. reflexivity.
  - destruct skip as [|k].
    + change ((String c a ++ ", " ++ b)%string)
        with (String c (a ++ ", " ++ b)).
      cbn [splitScan]. rewrite prefix_comma_space_app.
      destruct (prefix ", " (String c a)) eqn:E.
      * apply prefix_comma_space_length in E. simpl in E.
        cbn [String.length Nat.sub app]. f_equal. apply IH. lia.
      * apply IH. lia.
    + simpl. apply IH. simpl in Hskip. lia.
Qed.

Lemma split_terms_app a b :
  split (a ++ ", " ++ b)%string ", " = split a ", " ++ split b ", ".
Proof. apply splitScan_comma_space_app. lia. Qed.

Lemma triggered_app xs ys pronounClass :
  triggered (xs ++ ys) pronounClass =
  triggered xs pronounClass || triggered ys pronounClass.
Proof. unfold triggered, some. apply existsb_app. Qed.

Lemma mergedTerms_app a b m :
  In m (mergedTerms (a ++ ", " ++ b)%string) <->
  In m (mergedTerms a) \/ In m (mergedTerms b).
Proof.
  rewrite !mergedTerms_In, !additionalPronouns_In.
  unfold normalizedTerms. rewrite split_terms_app, map_app, in_app_iff.
  setoid_rewrite triggered_app. setoid_rewrite orb_true_iff. split.
  - intros [[H | H] | [cl [H1 [[H2 | H2] H3]]]]; eauto 10.
  - intros [[H | [cl [H1 [H2 H3]]]] | [H | [cl [H1 [H2 H3]]]]]; eauto 10.
Qed.

(** X9.  The term list of two terms strings put together with [", "] is the
    term list of the first followed by that of the second, and a string is in
    the result for the joined terms exactly when it is in the result for one
    of the two: supplying more terms never loses a match. *)
Theorem findTermInstances_terms_app text a b :
  split (a ++ ", " ++ b)%string ", " = split a ", " ++ split b ", "
  /\ (forall m, In m (mergedTerms (a ++ ", " ++ b)%string) <->
                In m (mergedTerms a) \/ In m (mergedTerms b))
  /\ (forall r,
         In r (findTermInstances text (a ++ ", " ++ b)%string) <->
         In r (findTermInstances text a) \/ In r (findTermInstances text b)).
Proof.
  split; [apply split_terms_app|]. split; [apply mergedTerms_app|].
  intros r. rewrite !findTermInstances_In.
  setoid_rewrite mergedTerms_app. split.
  - intros [[[Hm | Hm] H] | [t [[Hm | Hm] H]]]; eauto 10.
  - intros [[[Hm H] | [t [Hm H]]] | [[Hm H] | [t [Hm H]]]]; eauto 10.
Qed.

(** *** Order and size of the result *)

Lemma Subsequence_refl {A : Type} (xs : list A) : Subsequence xs xs.
Proof. induction xs; now constructor. Qed.

Lemma Subsequence_app {A : Type} (xs xs' ys ys' : list A) :
  Subsequence xs xs' -> Subsequence ys ys' ->
  Subsequence (xs ++ ys) (xs' ++ ys').
Proof. induction 1; intros H'; simpl; [assumption | |]; constructor; auto. Qed.

Lemma Subsequence_insert {A : Type} (x : A) ys : forall xs zs,
  Subsequence xs (ys ++ zs) -> Subsequence xs (ys ++ x :: zs).
Proof.
  induction ys as [|y ys IH]; intros xs zs H; simpl in *.
  - now constructor.
  - inversion H; subst; constructor; auto.
Qed.

Lemma Subsequence_insert_list {A : Type} (ms : list A) : forall xs ys zs,
  Subsequence xs (ys ++ zs) -> Subsequence xs (ys ++ ms ++ zs).
Proof.
  induction ms as [|m ms IH]; intros xs ys zs H; simpl; [assumption|].
  apply Subsequence_insert. now apply IH.
Qed.

Lemma Subsequence_length {A : Type} (xs ys : list A) :
  Subsequence xs ys -> List.length xs <= List.length ys.
Proof. induction 1; simpl; lia. Qed.

Lemma fold_setAdd_Subsequence xs : forall seen,
  Subsequence (fold_left setAdd xs seen) (seen ++ xs).
Proof.
  induction xs as [|x xs IH]; intros seen; simpl.
  - rewrite app_nil_r. apply Subsequence_refl.
  - unfold setAdd at 2. destruct (includes seen x).
    + apply Subsequence_insert. apply IH.
    + specialize (IH (seen ++ [x])). now rewrite <- app_assoc in IH.
Qed.

Lemma expansion_fold_Subsequence terms classes : forall acc,
  Subsequence
    (fold_left
       (fun pronounsToAdd pronounClass =>
          if some (fun term => includes pronounClass term) terms
          then pronounsToAdd ++ pronounClass
          else pronounsToAdd) classes acc)
    (acc ++ List.concat classes).
Proof.
  induction classes as [|cl classes IH]; intros acc; simpl.
  - rewrite app_nil_r. apply Subsequence_refl.
  - destruct (some (fun term => includes cl term) terms).
    + specialize (IH (acc ++ cl)). now rewrite <- app_assoc in IH.
    + apply Subsequence_insert_list. apply IH.
Qed.

Lemma filter_partition_length {A : Type} (p : A -> bool) xs :
  List.length (filter p xs) + List.length (filter (fun x => negb (p x)) xs) =
  List.length xs.
Proof.
  induction xs as [|x xs IH]; simpl; [reflexivity|].
  destruct (p x); simpl; lia.
Qed.

(** X10.  The order of the result follows the order of the terms: the merged
    list keeps the supplied terms in their order, then the pronouns of the
    triggered classes in the order of the table, each string at its first
    occurrence; the two subsets and the matches found in them keep that
    order. *)
Theorem findTermInstances_order_kept text terms :
  Subsequence (additionalPronouns (normalizedTerms terms))
              (List.concat (Object_values PRONOUNS))
  /\ Subsequence (mergedTerms terms)
                 (normalizedTerms terms
                  ++ additionalPronouns (normalizedTerms terms))
  /\ Subsequence (caseSensitiveTerms terms) (mergedTerms terms)
  /\ Subsequence (caseInsensitiveTerms terms) (mergedTerms terms)
  /\ Subsequence (findTermInstances text terms)
                 (caseSensitiveTerms terms ++ caseInsensitiveTerms terms).
Proof.
  split; [|split; [|split; [|split]]].
  - apply (expansion_fold_Subsequence (normalizedTerms terms) _ []).
  - apply (fold_setAdd_Subsequence _ []).
  - apply filter_Subsequence.
  - apply filter_Subsequence.
  - rewrite findTermInstances_concat, caseInsensitiveMatches_filter.
    apply Subsequence_app; apply filter_Subsequence.
Qed.

(** X11.  The result is never longer than the merged term list, which is
    never longer than the supplied term list plus the thirteen pronouns of
    the table. *)
Theorem findTermInstances_length text terms :
  List.length (findTermInstances text terms) <= List.length (mergedTerms terms)
  /\ List.length (mergedTerms terms) <=
     List.length (split terms ", ") + 13.
Proof.
  split.
  - rewrite <- (filter_partition_length isTermCaseSensitive (mergedTerms terms)).
    rewrite findTermInstances_concat, caseInsensitiveMatches_filter.
    rewrite length_app.
    apply Nat.add_le_mono; apply Subsequence_length, filter_Subsequence.
  - pose proof (Subsequence_length _ _
                  (fold_setAdd_Subsequence
                     (normalizedTerms terms
                      ++ additionalPronouns (normalizedTerms terms)) [])) as H1.
    pose proof (Subsequence_length _ _
                  (expansion_fold_Subsequence
                     (normalizedTerms terms) (Object_values PRONOUNS) []))
      as H2.
    fold (newSet (normalizedTerms terms
                  ++ additionalPronouns (normalizedTerms terms))) in H1.
    fold (additionalPronouns (normalizedTerms terms)) in H2.
    fold (mergedTerms terms) in H1.
    cbn [app] in H1, H2. rewrite length_app in H1.
    unfold normalizedTerms in H1 at 1. rewrite length_map in H1.
    change (List.length (List.concat (Object_values PRONOUNS))) with 13 in H2.
    lia.
Qed.
